(** * bionic libc: the locale subsystem (libc/bionic/locale.cpp)

    A shallow embedding of [locale.cpp] and the properties of its public
    entry points: [setlocale], [newlocale], [duplocale], [freelocale],
    [uselocale], [localeconv] and [__ctype_get_mb_cur_max].

    Conventions.
    - A [const char*] argument is [option string]: [None] is the null
      pointer, [Some buf] points at the bytes [buf], read the way C reads
      them, i.e. up to the first NUL byte or up to the end of [buf] where
      the terminator sits.  [c_str buf] is the C string so denoted.
    - [int] and [size_t] values are [Z].
    - A [locale_t] is a pointer: null, the distinguished [LC_GLOBAL_LOCALE],
      or the address of a [__locale_t] object on the heap.
    - Functions that read or write the process state are computations in
      the monad [M]; a computation yields [None] exactly where the C code
      would dereference or delete a pointer that refers to no live object. *)

From Stdlib Require Import ZArith Ascii String Lia.
From stdpp Require Import base option gmap strings relations.

Local Open Scope string_scope.
Local Open Scope Z_scope.

(** ** C strings and the two <string.h> functions the file calls *)

Module CString.

Definition NUL : ascii := "000"%char.

Definition is_nul (c : ascii) : bool := Ascii.eqb c NUL.

(** The value of a [char] converted to [unsigned char]. *)
Definition uchar (c : ascii) : Z := Z.of_N (N_of_ascii c).

(** The C string a buffer denotes: its bytes before the first NUL. *)
Fixpoint c_str (buf : string) : string :=
  match buf with
  | EmptyString => EmptyString
  | String c rest => if is_nul c then EmptyString else String c (c_str rest)
  end.

(** Modelled from the spec: [strcmp] comes from <string.h>, not from the
    file.  The spec reads a zero result as "the name is exactly this
    string"; the model is the C library's comparison, which walks both
    strings until they differ or both end and returns the difference of
    the two bytes as unsigned chars. *)
Fixpoint strcmp (s1 s2 : string) : Z :=
  match s1, s2 with
  | EmptyString, EmptyString => 0
  | EmptyString, String c2 _ => 0 - uchar c2
  | String c1 _, EmptyString => uchar c1 - 0
  | String c1 r1, String c2 r2 =>
      if Ascii.eqb c1 c2
      then (if is_nul c1 then 0 else strcmp r1 r2)
      else uchar c1 - uchar c2
  end.

(** Does [needle] (up to its terminator) sit at the front of [hay]? *)
Fixpoint starts_with (needle hay : string) : bool :=
  match needle with
  | EmptyString => true
  | String n needle' =>
      if is_nul n then true
      else match hay with
           | EmptyString => false
           | String h hay' => Ascii.eqb h n && starts_with needle' hay'
           end
  end.

(** Modelled from the spec: [strstr] comes from <string.h>, not from the
    file.  The spec reads a non-null result as "contains the substring";
    the model returns the offset of the first occurrence of [needle] in
    [haystack], and [None], the null pointer, when there is none. *)
Fixpoint strstr (haystack needle : string) : option nat :=
  if starts_with needle haystack then Some 0%nat
  else match haystack with
       | EmptyString => None
       | String c rest =>
           if is_nul c then None else S <$> strstr rest needle
       end.

(** [sub] occurs somewhere in [s]. *)
Definition contains (sub s : string) : Prop :=
  ∃ pre post, s = pre ++ sub ++ post.

End CString.

Import CString.

(** ** The locale name validator (locale.cpp, lines 106-116) *)

Definition __is_supported_locale (locale_name : string) : bool :=
  (strcmp locale_name EmptyString =? 0) ||
  (strcmp locale_name "C" =? 0) ||
  (strcmp locale_name "C.UTF-8" =? 0) ||
  (strcmp locale_name "en_US.UTF-8" =? 0) ||
  (strcmp locale_name "POSIX" =? 0).

(** The first operand reads the first byte; the second is the test of the
    pointer [strstr] returns against null. *)
Definition __is_utf8_locale (locale_name : string) : bool :=
  match locale_name with
  | EmptyString => true
  | String c _ => is_nul c
  end || bool_decide (is_Some (strstr locale_name "UTF-8")).

(** ** Pointers, objects and the process state *)

(** Threads are named by numbers; heap objects live at positive addresses. *)
Definition thread_id := nat.
Definition addr := positive.

(** Modelled from the spec: [locale_t] is [__locale_t*], and the macro
    [LC_GLOBAL_LOCALE] comes from <locale.h>, not from the file.  The spec
    has it as a distinguished constant, not an allocated object, compared
    by identity: a pointer value that is neither null nor the address of
    any object. *)
Inductive locale_t : Type :=
| NULL
| LC_GLOBAL_LOCALE
| Ptr (a : addr).

Arguments Ptr a%_positive.

#[global] Instance locale_t_eq_dec : EqDecision locale_t.
Proof. solve_decision. Defined.

(** [struct __locale_t] (lines 47-62). *)
Record __locale_t : Type := Build_locale { mb_cur_max : Z }.

(** Modelled from the spec: [struct lconv] is declared in <locale.h>, not
    in the file.  The spec has text fields and numeric fields; the members
    are those [__locale_init] assigns.  A [char*] member is [option string]
    ([None] the null pointer), a [char] member is [Z]. *)
Record lconv : Type := Build_lconv {
  decimal_point : option string;
  thousands_sep : option string;
  grouping : option string;
  int_curr_symbol : option string;
  currency_symbol : option string;
  mon_decimal_point : option string;
  mon_thousands_sep : option string;
  mon_grouping : option string;
  positive_sign : option string;
  negative_sign : option string;
  int_frac_digits : Z;
  frac_digits : Z;
  p_cs_precedes : Z;
  p_sep_by_space : Z;
  n_cs_precedes : Z;
  n_sep_by_space : Z;
  p_sign_posn : Z;
  n_sign_posn : Z;
  int_p_cs_precedes : Z;
  int_p_sep_by_space : Z;
  int_n_cs_precedes : Z;
  int_n_sep_by_space : Z;
  int_p_sign_posn : Z;
  int_n_sign_posn : Z
}.

(** The members of a table other than [decimal_point], by kind. *)
Definition text_members (l : lconv) : list (option string) :=
  [thousands_sep l; grouping l; int_curr_symbol l; currency_symbol l;
   mon_decimal_point l; mon_thousands_sep l; mon_grouping l;
   positive_sign l; negative_sign l].

Definition numeric_members (l : lconv) : list Z :=
  [int_frac_digits l; frac_digits l; p_cs_precedes l; p_sep_by_space l;
   n_cs_precedes l; n_sep_by_space l; p_sign_posn l; n_sign_posn l;
   int_p_cs_precedes l; int_p_sep_by_space l; int_n_cs_precedes l;
   int_n_sep_by_space l; int_p_sign_posn l; int_n_sign_posn l].

(** An object with static storage duration starts out zeroed. *)
Definition lconv_zero : lconv :=
  Build_lconv None None None None None None None None None None
              0 0 0 0 0 0 0 0 0 0 0 0 0 0.

(** The state the file reads and writes:
    - its three statics (lines 45, 73, 74);
    - the [__locale_t] objects made by [new] and not yet deleted;
    - per thread, the [locale] member of [__get_bionic_tls()] (a thread
      without an entry still has the zeroed slot, i.e. null) and [errno]. *)
Record state : Type := State {
  __bionic_current_locale_is_utf8 : bool;
  g_locale_once : bool;
  g_locale : lconv;
  heap : gmap addr __locale_t;
  tls_locale : gmap thread_id locale_t;
  errno : gmap thread_id Z
}.

(** The state at process start. *)
Definition initial_state : state :=
  State true false lconv_zero ∅ ∅ ∅.

Definition with_is_utf8 (b : bool) (s : state) : state :=
  State b (g_locale_once s) (g_locale s) (heap s) (tls_locale s) (errno s).
Definition with_g_locale_once (b : bool) (s : state) : state :=
  State (__bionic_current_locale_is_utf8 s) b (g_locale s) (heap s)
        (tls_locale s) (errno s).
Definition with_g_locale (g : lconv) (s : state) : state :=
  State (__bionic_current_locale_is_utf8 s) (g_locale_once s) g (heap s)
        (tls_locale s) (errno s).
Definition with_heap (h : gmap addr __locale_t) (s : state) : state :=
  State (__bionic_current_locale_is_utf8 s) (g_locale_once s) (g_locale s) h
        (tls_locale s) (errno s).
Definition with_tls_locale (m : gmap thread_id locale_t) (s : state) : state :=
  State (__bionic_current_locale_is_utf8 s) (g_locale_once s) (g_locale s)
        (heap s) m (errno s).
Definition with_errno (m : gmap thread_id Z) (s : state) : state :=
  State (__bionic_current_locale_is_utf8 s) (g_locale_once s) (g_locale s)
        (heap s) (tls_locale s) m.

(** ** The monad of the embedding

    A computation runs on a thread, reads and writes the state, and either
    returns a value with the new state or has no defined behaviour. *)
Definition M (A : Type) : Type := thread_id → state → option (A * state).

Definition ret {A : Type} (x : A) : M A := λ _ s, Some (x, s).

Definition bind {A B : Type} (m : M A) (k : A → M B) : M B :=
  λ t s, match m t s with
         | Some (x, s') => k x t s'
         | None => None
         end.

Notation "'let*' x ':=' m 'in' k" := (bind m (λ x, k))
  (at level 10, x name, m at level 100, k at level 200, only parsing).
Notation "'do' m 'then' k" := (bind m (λ _, k))
  (at level 10, m at level 100, k at level 200, only parsing).

(** Reading and writing [__bionic_current_locale_is_utf8]. *)
Definition load_is_utf8 : M bool :=
  λ _ s, Some (__bionic_current_locale_is_utf8 s, s).
Definition store_is_utf8 (b : bool) : M unit :=
  λ _ s, Some (tt, with_is_utf8 b s).

(** [errno = e;] on the calling thread. *)
Definition set_errno (e : Z) : M unit :=
  λ t s, Some (tt, with_errno (<[t := e]> (errno s)) s).

(** Modelled from the spec: [__get_bionic_tls] comes from
    pthread_internal.h, not from the file.  The spec gives every thread one
    slot of its own, empty at first.  These are the read and the write of
    [*locale_storage] with [locale_storage = &__get_bionic_tls().locale]. *)
Definition load_tls_locale : M locale_t :=
  λ t s, Some (default NULL (tls_locale s !! t), s).
Definition store_tls_locale (l : locale_t) : M unit :=
  λ t s, Some (tt, with_tls_locale (<[t := l]> (tls_locale s)) s).

(** [new __locale_t(...)]: the object is placed at an address that holds
    no live object; the result is neither null nor [LC_GLOBAL_LOCALE]. *)
Definition new (obj : __locale_t) : M locale_t :=
  λ _ s, let a := fresh (dom (heap s)) in
         Some (Ptr a, with_heap (<[a := obj]> (heap s)) s).

(** [*l]: defined only for the address of a live object. *)
Definition deref (l : locale_t) : M __locale_t :=
  λ _ s, match l with
         | Ptr a => (λ obj, (obj, s)) <$> heap s !! a
         | _ => None
         end.

(** [delete l]: nothing for the null pointer, otherwise defined only for
    the address of a live object, which it destroys. *)
Definition delete (l : locale_t) : M unit :=
  λ _ s, match l with
         | NULL => Some (tt, s)
         | Ptr a =>
             (λ _, (tt, with_heap (base.delete a (heap s)) s)) <$> heap s !! a
         | LC_GLOBAL_LOCALE => None
         end.

(** Modelled from the spec: [pthread_once] comes from <pthread.h>, not from
    the file.  The spec's one-time-initialization guard: the first call of
    [pthread_once(&g_locale_once, init)] runs [init] and then marks the
    control as done; later calls do nothing. *)
Definition pthread_once_g_locale (init : M unit) : M unit :=
  λ t s, if g_locale_once s then Some (tt, s)
         else (λ r, (tt, with_g_locale_once true r.2)) <$> init t s.

(** ** locale.cpp

    <locale.h>, <errno.h> and <limits.h> are not part of the file, so the
    constants it takes from them are parameters of the development. *)
Class Headers : Type := {
  LC_CTYPE : Z;
  LC_IDENTIFICATION : Z;
  LC_ALL_MASK : Z;
  EINVAL : Z;
  ENOENT : Z;
  CHAR_MAX : Z
}.

(** The values Android's headers give them where [char] is signed; they
    serve to run the functions on concrete inputs. *)
Definition android_headers : Headers :=
  {| LC_CTYPE := 0;
     LC_IDENTIFICATION := 12;
     LC_ALL_MASK := 8127;
     EINVAL := 22;
     ENOENT := 2;
     CHAR_MAX := 127 |}.

Section Locale.

Context `{Headers}.

(** [explicit __locale_t(size_t mb_cur_max)] (line 50). *)
Definition __locale_t_of_width (mb_cur_max : Z) : M __locale_t :=
  ret (Build_locale mb_cur_max).

(** [explicit __locale_t(const __locale_t* other)] (lines 53-59). *)
Definition __locale_t_of_other (other : locale_t) : M __locale_t :=
  if decide (other = LC_GLOBAL_LOCALE) then
    let* is_utf8 := load_is_utf8 in
    ret (Build_locale (if is_utf8 then 4 else 1))
  else
    let* o := deref other in
    ret (Build_locale (mb_cur_max o)).

(** [uselocale] (lines 166-180). *)
Definition uselocale (new_locale : locale_t) : M locale_t :=
  let* old_locale := load_tls_locale in
  let old_locale :=
    if decide (old_locale = NULL) then LC_GLOBAL_LOCALE else old_locale in
  do (if decide (new_locale ≠ NULL) then store_tls_locale new_locale
      else ret tt) then
  ret old_locale.

(** [__ctype_get_mb_cur_max] (lines 64-71). *)
Definition __ctype_get_mb_cur_max : M Z :=
  let* l := uselocale NULL in
  if decide (l = LC_GLOBAL_LOCALE) then
    let* is_utf8 := load_is_utf8 in
    ret (if is_utf8 then 4 else 1)
  else
    let* o := deref l in
    ret (mb_cur_max o).

(** [__locale_init] (lines 76-104). *)
Definition __locale_init : M unit :=
  λ _ s,
    let not_available := Some EmptyString in
    Some (tt, with_g_locale
      {| decimal_point := Some ".";
         thousands_sep := not_available;
         grouping := not_available;
         int_curr_symbol := not_available;
         currency_symbol := not_available;
         mon_decimal_point := not_available;
         mon_thousands_sep := not_available;
         mon_grouping := not_available;
         positive_sign := not_available;
         negative_sign := not_available;
         int_frac_digits := CHAR_MAX;
         frac_digits := CHAR_MAX;
         p_cs_precedes := CHAR_MAX;
         p_sep_by_space := CHAR_MAX;
         n_cs_precedes := CHAR_MAX;
         n_sep_by_space := CHAR_MAX;
         p_sign_posn := CHAR_MAX;
         n_sign_posn := CHAR_MAX;
         int_p_cs_precedes := CHAR_MAX;
         int_p_sep_by_space := CHAR_MAX;
         int_n_cs_precedes := CHAR_MAX;
         int_n_sep_by_space := CHAR_MAX;
         int_p_sign_posn := CHAR_MAX;
         int_n_sign_posn := CHAR_MAX |} s).

(** [localeconv] (lines 118-121).  The function returns [&g_locale]; the
    embedding returns what that pointer refers to when the call returns. *)
Definition localeconv : M lconv :=
  do pthread_once_g_locale __locale_init then
  λ _ s, Some (g_locale s, s).

(** [duplocale] (lines 123-125). *)
Definition duplocale (l : locale_t) : M locale_t :=
  let* obj := __locale_t_of_other l in
  new obj.

(** [freelocale] (lines 127-129). *)
Definition freelocale (l : locale_t) : M unit :=
  delete l.

(** [newlocale] (lines 131-144); the third argument is unnamed and unused. *)
Definition newlocale (category_mask : Z) (locale_name : option string)
    (base : locale_t) : M locale_t :=
  if negb (Z.land category_mask (Z.lnot LC_ALL_MASK) =? 0)
     || bool_decide (locale_name = None)
  then (do set_errno EINVAL then ret NULL)
  else
    match locale_name with
    | None => do set_errno EINVAL then ret NULL
    | Some locale_name =>
        if negb (__is_supported_locale locale_name)
        then (do set_errno ENOENT then ret NULL)
        else
          let* obj := __locale_t_of_width
                  (if __is_utf8_locale locale_name then 4 else 1) in
          new obj
    end.

(** [setlocale] (lines 146-164).  The result is a [char*]: [None] is the
    null pointer, [Some n] a pointer to the string literal [n]. *)
Definition setlocale (category : Z) (locale_name : option string)
    : M (option string) :=
  let current :=
    let* is_utf8 := load_is_utf8 in
    ret (Some (if is_utf8 then "C.UTF-8" else "C")) in
  if (category <? LC_CTYPE) || (category >? LC_IDENTIFICATION)
  then (do set_errno EINVAL then ret None)
  else
    match locale_name with
    | Some locale_name =>
        if negb (__is_supported_locale locale_name)
        then (do set_errno ENOENT then ret None)
        else do store_is_utf8 (__is_utf8_locale locale_name) then current
    | None => current
    end.

(** ** Notions used to state the properties *)

(** The canonical name of a personality. *)
Definition canonical_name (is_utf8 : bool) : string :=
  if is_utf8 then "C.UTF-8" else "C".

(** What a thread's slot denotes: a slot still null reads as the sentinel. *)
Definition current_locale (t : thread_id) (s : state) : locale_t :=
  match tls_locale s !! t with
  | None | Some NULL => LC_GLOBAL_LOCALE
  | Some l => l
  end.

(** A category in the range [setlocale] accepts. *)
Definition valid_category (category : Z) : Prop :=
  LC_CTYPE ≤ category ≤ LC_IDENTIFICATION.

(** A mask with a bit outside the legal category set, and one without. *)
Definition bit_outside (category_mask : Z) : Prop :=
  ∃ i, Z.testbit category_mask i = true ∧ Z.testbit LC_ALL_MASK i = false.

Definition valid_category_mask (category_mask : Z) : Prop :=
  ∀ i, Z.testbit category_mask i = true → Z.testbit LC_ALL_MASK i = true.

(** A handle argument a caller may pass: null, the sentinel, or a handle it
    got from [newlocale] or [duplocale] and has not freed. *)
Definition valid_handle (l : locale_t) (s : state) : Prop :=
  match l with
  | Ptr a => is_Some (heap s !! a)
  | _ => True
  end.

(** The table [__locale_init] builds. *)
Definition c_format_table : lconv :=
  Build_lconv (Some ".") (Some EmptyString) (Some EmptyString)
    (Some EmptyString) (Some EmptyString) (Some EmptyString)
    (Some EmptyString) (Some EmptyString) (Some EmptyString)
    (Some EmptyString)
    CHAR_MAX CHAR_MAX CHAR_MAX CHAR_MAX CHAR_MAX CHAR_MAX CHAR_MAX
    CHAR_MAX CHAR_MAX CHAR_MAX CHAR_MAX CHAR_MAX CHAR_MAX CHAR_MAX.

(** One call of an entry point, by any thread, with any arguments for which
    the call is defined. *)
Inductive step : state → state → Prop :=
| step_setlocale t category locale_name r s s' :
    setlocale category locale_name t s = Some (r, s') → step s s'
| step_newlocale t category_mask locale_name base r s s' :
    newlocale category_mask locale_name base t s = Some (r, s') → step s s'
| step_duplocale t l r s s' :
    duplocale l t s = Some (r, s') → step s s'
| step_freelocale t l r s s' :
    freelocale l t s = Some (r, s') → step s s'
| step_uselocale t l r s s' :
    uselocale l t s = Some (r, s') → step s s'
| step_localeconv t r s s' :
    localeconv t s = Some (r, s') → step s s'
| step_mb_cur_max t r s s' :
    __ctype_get_mb_cur_max t s = Some (r, s') → step s s'.

(** The same without [freelocale], and with [uselocale] given a valid
    handle: the calls after which every handle in use is live. *)
Inductive api_step : state → state → Prop :=
| api_setlocale t category locale_name r s s' :
    setlocale category locale_name t s = Some (r, s') → api_step s s'
| api_newlocale t category_mask locale_name base r s s' :
    newlocale category_mask locale_name base t s = Some (r, s') →
    api_step s s'
| api_duplocale t l r s s' :
    duplocale l t s = Some (r, s') → api_step s s'
| api_uselocale t l r s s' :
    valid_handle l s →
    uselocale l t s = Some (r, s') → api_step s s'
| api_localeconv t r s s' :
    localeconv t s = Some (r, s') → api_step s s'
| api_mb_cur_max t r s s' :
    __ctype_get_mb_cur_max t s = Some (r, s') → api_step s s'.

(** What holds of every state the calls above can reach. *)
Definition handles_ok (s : state) : Prop :=
  (∀ a obj, heap s !! a = Some obj → mb_cur_max obj = 1 ∨ mb_cur_max obj = 4)
  ∧ (∀ t, valid_handle (default NULL (tls_locale s !! t)) s).

Definition table_ok (s : state) : Prop :=
  g_locale_once s = true → g_locale s = c_format_table.

End Locale.

(** ** Concrete states, for running the entry points *)

(** The process after [setlocale(LC_ALL, "C")]: the flag is off. *)
Definition c_locale_state : state :=
  with_is_utf8 false initial_state.

(** The process after thread 0 took [l = newlocale(LC_CTYPE_MASK, "C", 0)]
    and then called [uselocale(l)]. *)
Definition one_handle_state : state :=
  State true false lconv_zero
        {[ 1%positive := Build_locale 1 ]} {[ 0%nat := Ptr 1 ]} ∅.

(** ** Facts about C strings *)

Section CStringFacts.

Lemma is_nul_true c : is_nul c = true ↔ c = NUL.
Proof. apply Ascii.eqb_eq. Qed.

Lemma is_nul_false c : is_nul c = false ↔ c ≠ NUL.
Proof. apply Ascii.eqb_neq. Qed.

Lemma uchar_inj c1 c2 : uchar c1 = uchar c2 → c1 = c2.
Proof.
  unfold uchar. intros E%N2Z.inj.
  rewrite <- (ascii_N_embedding c1), <- (ascii_N_embedding c2).
  by rewrite E.
Qed.

Lemma uchar_zero c : uchar c = 0 ↔ is_nul c = true.
Proof.
  rewrite is_nul_true. split.
  - intros E. by apply uchar_inj.
  - by intros ->.
Qed.

Lemma c_str_cons_nul c rest : is_nul c = true → c_str (String c rest) = EmptyString.
Proof. simpl. by intros ->. Qed.

Lemma c_str_cons c rest :
  is_nul c = false → c_str (String c rest) = String c (c_str rest).
Proof. simpl. by intros ->. Qed.

(** A buffer without a NUL byte denotes itself. *)
Lemma c_str_no_nul buf :
  (∀ c, In c (list_ascii_of_string buf) → c ≠ NUL) → c_str buf = buf.
Proof.
  induction buf as [|c rest IH]; simpl; [done|].
  intros Hall. destruct (is_nul c) eqn:E.
  - apply is_nul_true in E. exfalso. eapply Hall; eauto.
  - f_equal. apply IH. intros c' Hc'. apply Hall. by right.
Qed.

Lemma c_str_idemp buf : c_str (c_str buf) = c_str buf.
Proof.
  induction buf as [|c rest IH]; simpl; [done|].
  destruct (is_nul c) eqn:E; simpl; [done|]. by rewrite E, IH.
Qed.

(** [strcmp] returns 0 exactly when the two C strings are the same. *)
Lemma strcmp_zero s1 s2 : strcmp s1 s2 = 0 ↔ c_str s1 = c_str s2.
Proof.
  revert s2. induction s1 as [|c1 r1 IH]; intros [|c2 r2]; simpl.
  - done.
  - pose proof (uchar_zero c2) as [U1 U2].
    destruct (is_nul c2); split; intros D; try done.
    + rewrite U2 by done. lia.
    + assert (false = true) by (apply U1; lia). done.
  - pose proof (uchar_zero c1) as [U1 U2].
    destruct (is_nul c1); split; intros D; try done.
    + rewrite U2 by done. lia.
    + assert (false = true) by (apply U1; lia). done.
  - destruct (Ascii.eqb c1 c2) eqn:E.
    + apply Ascii.eqb_eq in E as <-.
      destruct (is_nul c1); [done|].
      rewrite IH. split; congruence.
    + apply Ascii.eqb_neq in E.
      assert (uchar c1 - uchar c2 ≠ 0)
        by (intros D; apply E, uchar_inj; lia).
      destruct (is_nul c1) eqn:E1, (is_nul c2) eqn:E2; split; try congruence.
      apply is_nul_true in E1, E2. congruence.
Qed.

Lemma strcmp_eqb s1 s2 :
  (strcmp s1 s2 =? 0) = true ↔ c_str s1 = c_str s2.
Proof. by rewrite Z.eqb_eq, strcmp_zero. Qed.

Lemma append_nil_l (s : string) : EmptyString ++ s = s.
Proof. reflexivity. Qed.

Lemma append_cons c (s1 s2 : string) :
  String c s1 ++ s2 = String c (s1 ++ s2).
Proof. reflexivity. Qed.

(** [starts_with] finds the needle as a prefix of the haystack. *)
Lemma starts_with_spec needle hay :
  starts_with needle hay = true ↔ ∃ post, c_str hay = c_str needle ++ post.
Proof.
  revert hay. induction needle as [|n needle' IH]; intros hay; simpl.
  - split; eauto.
  - destruct (is_nul n) eqn:En; simpl; [split; eauto|].
    destruct hay as [|h hay']; simpl.
    + split; [done|]. by intros [? ?].
    + destruct (Ascii.eqb h n) eqn:E; simpl.
      * apply Ascii.eqb_eq in E as ->. rewrite En, IH.
        split; intros [post E]; exists post; rewrite append_cons in *;
          congruence.
      * apply Ascii.eqb_neq in E. split; [done|].
        intros [post Hp]. rewrite append_cons in Hp.
        destruct (is_nul h); congruence.
Qed.

Lemma starts_with_false needle hay post :
  starts_with needle hay = false → c_str hay ≠ c_str needle ++ post.
Proof.
  intros E Hp.
  assert (starts_with needle hay = true) by (apply starts_with_spec; eauto).
  congruence.
Qed.

(** [strstr] finds the needle wherever it occurs in the haystack. *)
Lemma strstr_spec haystack needle :
  is_Some (strstr haystack needle) ↔ contains (c_str needle) (c_str haystack).
Proof.
  unfold contains.
  induction haystack as [|c rest IH];
    cbn [strstr]; destruct (starts_with needle _) eqn:E.
  - split; [intros _|by eauto].
    apply starts_with_spec in E as [post E]. by exists EmptyString, post.
  - split; [by intros [? ?]|]. intros (pre & post & E').
    destruct pre; [|done].
    rewrite append_nil_l in E'. by eapply starts_with_false in E'.
  - split; [intros _|by eauto].
    apply starts_with_spec in E as [post E]. by exists EmptyString, post.
  - pose proof (λ post, starts_with_false _ _ post E) as Hno.
    simpl in *. destruct (is_nul c) eqn:Ec.
    + split; [by intros [? ?]|]. intros (pre & post & E').
      destruct pre; [|done]. by apply Hno in E'.
    + rewrite fmap_is_Some, IH. split.
      * intros (pre & post & E'). exists (String c pre), post.
        by rewrite append_cons, E'.
      * intros (pre & post & E'). destruct pre as [|p pre].
        -- by apply Hno in E'.
        -- exists pre, post. rewrite append_cons in E'. congruence.
Qed.

End CStringFacts.

(** ** The locale name validator *)

Section ValidatorFacts.

Lemma first_byte_nul locale_name :
  match locale_name with
  | EmptyString => true
  | String c _ => is_nul c
  end = true ↔ c_str locale_name = EmptyString.
Proof.
  destruct locale_name as [|c rest]; simpl; [done|].
  destruct (is_nul c); split; congruence.
Qed.

Lemma is_supported_locale_spec locale_name :
  __is_supported_locale locale_name = true ↔
    c_str locale_name = EmptyString ∨ c_str locale_name = "C" ∨
    c_str locale_name = "POSIX" ∨ c_str locale_name = "C.UTF-8" ∨
    c_str locale_name = "en_US.UTF-8".
Proof.
  unfold __is_supported_locale.
  rewrite !orb_true_iff, !strcmp_eqb. simpl. tauto.
Qed.

Lemma is_utf8_locale_spec locale_name :
  __is_utf8_locale locale_name = true ↔
    c_str locale_name = EmptyString ∨ contains "UTF-8" (c_str locale_name).
Proof.
  unfold __is_utf8_locale.
  rewrite orb_true_iff, first_byte_nul, bool_decide_eq_true, strstr_spec.
  done.
Qed.

(** C2. For every name, [__is_supported_locale] answers true exactly when
    the name is one of the five strings (empty), C, POSIX, C.UTF-8 and
    en_US.UTF-8, and [__is_utf8_locale] answers true exactly when the name
    is empty or has UTF-8 somewhere inside it.  Both are functions of the
    name alone, defined on every name. *)
Theorem validator_spec (locale_name : string) :
  (__is_supported_locale locale_name = true ↔
     c_str locale_name = EmptyString ∨ c_str locale_name = "C" ∨
     c_str locale_name = "POSIX" ∨ c_str locale_name = "C.UTF-8" ∨
     c_str locale_name = "en_US.UTF-8")
  ∧ (__is_utf8_locale locale_name = true ↔
       c_str locale_name = EmptyString ∨
       contains "UTF-8" (c_str locale_name)).
Proof. split; [apply is_supported_locale_spec | apply is_utf8_locale_spec]. Qed.

End ValidatorFacts.

(** ** Running the entry points *)

Section LocaleFacts.

Context `{Headers}.

Ltac run :=
  unfold setlocale, newlocale, duplocale, freelocale, uselocale, localeconv,
    __ctype_get_mb_cur_max, __locale_t_of_other, __locale_t_of_width,
    __locale_init, pthread_once_g_locale, new, deref, delete,
    load_is_utf8, store_is_utf8, set_errno, load_tls_locale,
    store_tls_locale, bind, ret;
  simpl.

Lemma category_test category :
  valid_category category →
  (category <? LC_CTYPE) || (category >? LC_IDENTIFICATION) = false.
Proof.
  intros [Hlo Hhi]. apply orb_false_iff. split; [lia|].
  rewrite Z.gtb_ltb. lia.
Qed.

(** The three ways a call of [setlocale] with a valid category ends. *)
Lemma setlocale_query category t s :
  valid_category category →
  setlocale category None t s =
    Some (Some (canonical_name (__bionic_current_locale_is_utf8 s)), s).
Proof. intros Hc. run. by rewrite category_test. Qed.

Lemma setlocale_assign category locale_name t s :
  valid_category category →
  __is_supported_locale locale_name = true →
  setlocale category (Some locale_name) t s =
    Some (Some (canonical_name (__is_utf8_locale locale_name)),
          with_is_utf8 (__is_utf8_locale locale_name) s).
Proof. intros Hc Hn. run. by rewrite category_test, Hn. Qed.

Lemma setlocale_reject category locale_name t s :
  valid_category category →
  __is_supported_locale locale_name = false →
  setlocale category (Some locale_name) t s =
    Some (None, with_errno (<[t := ENOENT]> (errno s)) s).
Proof. intros Hc Hn. run. by rewrite category_test, Hn. Qed.

Lemma with_is_utf8_id b s :
  with_is_utf8 b s = s ↔ __bionic_current_locale_is_utf8 s = b.
Proof.
  destruct s as [u o g h l e]. unfold with_is_utf8. simpl.
  split; [by intros [= ->] | by intros ->].
Qed.

(** C1, as amended. With a valid category and the empty string as name,
    [setlocale] selects the UTF-8 personality: it sets the flag, changes
    nothing else and returns C.UTF-8, the canonical name of the new state.
    The state is left as it was exactly when the flag was already set. *)
Theorem setlocale_empty_name category t s :
  valid_category category →
  setlocale category (Some EmptyString) t s =
    Some (Some "C.UTF-8", with_is_utf8 true s)
  ∧ (with_is_utf8 true s = s ↔ __bionic_current_locale_is_utf8 s = true).
Proof.
  intros Hc. split; [|apply with_is_utf8_id].
  by rewrite setlocale_assign.
Qed.

(** C10. With a valid category and a null name, [setlocale] is a query: it
    returns C.UTF-8 if the flag is set and C otherwise, and the state stays
    as it is.  The empty string is not that form: it is a supported name,
    and the call assigns the flag from it. *)
Theorem setlocale_null_name category t s :
  valid_category category →
  setlocale category None t s =
    Some (Some (if __bionic_current_locale_is_utf8 s then "C.UTF-8" else "C"),
          s)
  ∧ __is_supported_locale EmptyString = true
  ∧ setlocale category (Some EmptyString) t s =
      Some (Some "C.UTF-8", with_is_utf8 (__is_utf8_locale EmptyString) s)
  ∧ __bionic_current_locale_is_utf8
      (with_is_utf8 (__is_utf8_locale EmptyString) s) = true.
Proof.
  intros Hc. split; [by apply setlocale_query|].
  split; [done|]. split; [|done].
  by rewrite setlocale_assign.
Qed.

(** C6. With a valid category and a name the validator rejects, [setlocale]
    returns null and sets the caller's [errno] to [ENOENT]; the flag is as
    before, so a query made afterwards, with any valid category and from any
    thread, returns the name it would have returned before the call. *)
Theorem setlocale_unsupported_name category locale_name t s category' t' :
  valid_category category →
  __is_supported_locale locale_name = false →
  valid_category category' →
  ∃ s',
    setlocale category (Some locale_name) t s = Some (None, s')
    ∧ errno s' !! t = Some ENOENT
    ∧ __bionic_current_locale_is_utf8 s' = __bionic_current_locale_is_utf8 s
    ∧ with_errno (errno s) s' = s
    ∧ fst <$> setlocale category' None t' s' =
        fst <$> setlocale category' None t' s
    ∧ fst <$> setlocale category' None t' s' =
        Some (Some (canonical_name (__bionic_current_locale_is_utf8 s))).
Proof.
  intros Hc Hn Hc'. eexists. split; [by apply setlocale_reject|].
  rewrite !setlocale_query by done. simpl.
  split; [apply lookup_insert_eq|]. split; [done|].
  split; [by destruct s|done].
Qed.

(** The test [newlocale] makes on its mask, bit by bit. *)
Lemma mask_test_valid category_mask :
  valid_category_mask category_mask ↔
  Z.land category_mask (Z.lnot LC_ALL_MASK) = 0.
Proof.
  unfold valid_category_mask. split.
  - intros Hm. apply Z.bits_inj'. intros i Hi.
    rewrite Z.land_spec, Z.lnot_spec, Z.bits_0 by done.
    destruct (Z.testbit category_mask i) eqn:E; [|done].
    by rewrite (Hm i E).
  - intros E i Hi.
    assert (0 ≤ i) as Hpos.
    { destruct (Z.neg_nonneg_cases i) as [Hneg|]; [|done].
      by rewrite Z.testbit_neg_r in Hi. }
    assert (Z.testbit (Z.land category_mask (Z.lnot LC_ALL_MASK)) i = false)
      as Hb by (by rewrite E, Z.bits_0).
    rewrite Z.land_spec, Z.lnot_spec, Hi in Hb by done.
    by destruct (Z.testbit LC_ALL_MASK i).
Qed.

Lemma mask_test_outside category_mask :
  bit_outside category_mask →
  Z.land category_mask (Z.lnot LC_ALL_MASK) ≠ 0.
Proof.
  intros (i & Hi & Ho) E.
  assert (0 ≤ i) as Hpos.
  { destruct (Z.neg_nonneg_cases i) as [Hneg|]; [|done].
    by rewrite Z.testbit_neg_r in Hi. }
  assert (Z.testbit (Z.land category_mask (Z.lnot LC_ALL_MASK)) i = true)
    as Hb by (by rewrite Z.land_spec, Z.lnot_spec, Hi, Ho).
  by rewrite E, Z.bits_0 in Hb.
Qed.

(** [new] never hands out an address that is in use. *)
Lemma fresh_addr_unused (s : state) : heap s !! fresh (dom (heap s)) = None.
Proof. apply not_elem_of_dom, is_fresh. Qed.

(** What [uselocale] and [__ctype_get_mb_cur_max] compute, in one piece. *)
Lemma uselocale_run new_locale t s :
  uselocale new_locale t s =
    Some (current_locale t s,
          if decide (new_locale = NULL) then s
          else with_tls_locale (<[t := new_locale]> (tls_locale s)) s).
Proof.
  run. unfold current_locale.
  destruct (tls_locale s !! t) as [[| |a]|]; simpl;
    by destruct new_locale.
Qed.

Lemma mb_cur_max_run t s :
  __ctype_get_mb_cur_max t s =
    match current_locale t s with
    | NULL => None
    | LC_GLOBAL_LOCALE =>
        Some (if __bionic_current_locale_is_utf8 s then 4 else 1, s)
    | Ptr a => (λ obj, (mb_cur_max obj, s)) <$> heap s !! a
    end.
Proof.
  unfold __ctype_get_mb_cur_max, bind at 1. rewrite uselocale_run. simpl.
  destruct (current_locale t s) as [| |a]; run; [done..|].
  by destruct (heap s !! a).
Qed.

(** C3. For a name the validator accepts and a mask with no bit outside
    the legal set, [newlocale] returns a new handle, at an address that was
    not in use, whose width is 4 if the name selects UTF-8 and 1 otherwise;
    once that handle is installed with [uselocale], the width query
    [__ctype_get_mb_cur_max] returns that width. *)
Theorem newlocale_supported_name category_mask locale_name base t s :
  valid_category_mask category_mask →
  __is_supported_locale locale_name = true →
  let width := if __is_utf8_locale locale_name then 4 else 1 in
  ∃ a s',
    newlocale category_mask (Some locale_name) base t s = Some (Ptr a, s')
    ∧ heap s !! a = None
    ∧ s' = with_heap (<[a := Build_locale width]> (heap s)) s
    ∧ heap s' !! a = Some (Build_locale width)
    ∧ ∃ s'', (do uselocale (Ptr a) then __ctype_get_mb_cur_max) t s' =
               Some (width, s'').
Proof.
  intros Hm Hn width. apply mask_test_valid in Hm.
  exists (fresh (dom (heap s))). eexists. split.
  { run. rewrite Hm, Hn. simpl. reflexivity. }
  split; [apply fresh_addr_unused|]. split; [done|].
  split; [apply lookup_insert_eq|].
  eexists. unfold bind. rewrite uselocale_run, mb_cur_max_run.
  unfold current_locale. simpl. rewrite !lookup_insert_eq. simpl.
  reflexivity.
Qed.

(** C7. If the mask has a bit outside the legal category set, whatever the
    name (supported, unsupported or null), or if the name is null, whatever
    the mask, [newlocale] returns null and sets the caller's [errno] to
    [EINVAL]; nothing else changes. *)
Theorem newlocale_invalid_argument category_mask locale_name base t s :
  bit_outside category_mask ∨ locale_name = None →
  newlocale category_mask locale_name base t s =
    Some (NULL, with_errno (<[t := EINVAL]> (errno s)) s).
Proof.
  intros [Hm | ->]; run.
  - apply mask_test_outside, Z.eqb_neq in Hm. by rewrite Hm.
  - by rewrite orb_true_r.
Qed.

(** C4. [duplocale] returns a new handle for the sentinel and for every
    live handle.  For the sentinel the width is 4 if the flag is set at the
    call and 1 otherwise; for a live handle it is that handle's width.  The
    new handle keeps its width through every later call of [setlocale]. *)
Theorem duplocale_snapshot l width t s category locale_name t' :
  (l = LC_GLOBAL_LOCALE
   ∧ width = (if __bionic_current_locale_is_utf8 s then 4 else 1))
  ∨ (∃ a obj, l = Ptr a ∧ heap s !! a = Some obj ∧ width = mb_cur_max obj) →
  ∃ a' s',
    duplocale l t s = Some (Ptr a', s')
    ∧ heap s !! a' = None
    ∧ s' = with_heap (<[a' := Build_locale width]> (heap s)) s
    ∧ heap s' !! a' = Some (Build_locale width)
    ∧ ∃ r s'', setlocale category locale_name t' s' = Some (r, s'')
               ∧ heap s'' !! a' = Some (Build_locale width).
Proof.
  intros Hl. exists (fresh (dom (heap s))).
  exists (with_heap (<[fresh (dom (heap s)) := Build_locale width]> (heap s)) s).
  split.
  { destruct Hl as [[-> ->] | (a & obj & -> & Ha & ->)]; run.
    - reflexivity.
    - by rewrite Ha. }
  split; [apply fresh_addr_unused|]. split; [done|].
  split; [apply lookup_insert_eq|].
  run. repeat case_match; eexists _, _; (split; [reflexivity|]);
    apply lookup_insert_eq.
Qed.

(** C5. On a thread whose slot was never written, [uselocale] with a null
    argument returns the sentinel.  With a non-null argument it stores the
    argument in the caller's slot, touches nothing else, and returns what
    the slot denoted before the call, the sentinel for a slot never
    written.  With a null argument it returns what the slot denotes and
    leaves the state as it is. *)
Theorem uselocale_spec new_locale t s :
  (tls_locale s !! t = None →
     uselocale NULL t s = Some (LC_GLOBAL_LOCALE, s))
  ∧ (new_locale ≠ NULL →
       ∃ s', uselocale new_locale t s = Some (current_locale t s, s')
             ∧ s' = with_tls_locale (<[t := new_locale]> (tls_locale s)) s
             ∧ tls_locale s' !! t = Some new_locale
             ∧ (∀ t', t' ≠ t → tls_locale s' !! t' = tls_locale s !! t')
             ∧ uselocale NULL t s' = Some (new_locale, s'))
  ∧ uselocale NULL t s = Some (current_locale t s, s).
Proof.
  split; [|split].
  - intros Hfresh. rewrite uselocale_run. unfold current_locale.
    by rewrite Hfresh.
  - intros Hnew. eexists. split; [|split; [reflexivity|]].
    { rewrite uselocale_run. by rewrite decide_False. }
    simpl. split; [apply lookup_insert_eq|].
    split; [by intros t' Ht'; apply lookup_insert_ne|].
    rewrite uselocale_run. unfold current_locale. simpl.
    rewrite lookup_insert_eq. by destruct new_locale.
  - by rewrite uselocale_run.
Qed.

(** ** What each entry point may change *)

Lemma setlocale_effect category locale_name t s r s' :
  setlocale category locale_name t s = Some (r, s') →
  ∃ b e, s' = with_errno e (with_is_utf8 b s).
Proof.
  run. intros E.
  repeat case_match; injection E as <- <-; try (by eexists _, _).
  all: exists (__bionic_current_locale_is_utf8 s), (errno s); by destruct s.
Qed.

Lemma newlocale_effect category_mask locale_name base t s r s' :
  newlocale category_mask locale_name base t s = Some (r, s') →
  (∃ e, r = NULL ∧ s' = with_errno e s)
  ∨ (∃ width, (width = 1 ∨ width = 4)
       ∧ r = Ptr (fresh (dom (heap s)))
       ∧ s' = with_heap
                (<[fresh (dom (heap s)) := Build_locale width]> (heap s)) s).
Proof.
  run. intros E.
  repeat case_match; injection E as <- <-; try (left; by eexists).
  all: right; eexists; split; [|done]; auto.
Qed.

Lemma duplocale_effect l t s r s' :
  duplocale l t s = Some (r, s') →
  ∃ width,
    r = Ptr (fresh (dom (heap s)))
    ∧ s' = with_heap
             (<[fresh (dom (heap s)) := Build_locale width]> (heap s)) s
    ∧ ((l = LC_GLOBAL_LOCALE
        ∧ width = (if __bionic_current_locale_is_utf8 s then 4 else 1))
       ∨ (∃ a obj, l = Ptr a ∧ heap s !! a = Some obj
                   ∧ width = mb_cur_max obj)).
Proof.
  run. intros E. destruct l as [| |a]; simpl in E; simplify_eq.
  - eexists. split; [done|]. split; [done|]. by left.
  - destruct (heap s !! a) as [obj|] eqn:Ha; simpl in E; simplify_eq.
    eexists. split; [done|]. split; [done|]. right. by exists a, obj.
Qed.

Lemma freelocale_effect l t s r s' :
  freelocale l t s = Some (r, s') → ∃ h, s' = with_heap h s.
Proof.
  run. intros E. destruct l as [| |a]; [|done|].
  - injection E as <- <-. exists (heap s). by destruct s.
  - destruct (heap s !! a); simpl in E; [|done].
    injection E as <- <-. by eexists.
Qed.

Lemma mb_cur_max_effect t s r s' :
  __ctype_get_mb_cur_max t s = Some (r, s') → s' = s.
Proof.
  rewrite mb_cur_max_run. intros E.
  destruct (current_locale t s) as [| |a]; [done|by injection E|].
  destruct (heap s !! a); simpl in E; [by injection E|done].
Qed.

Lemma localeconv_run t s :
  localeconv t s =
    if g_locale_once s then Some (g_locale s, s)
    else Some (c_format_table,
               with_g_locale_once true (with_g_locale c_format_table s)).
Proof. run. by destruct (g_locale_once s). Qed.

(** ** The format table *)

Lemma step_table_ok s s' : step s s' → table_ok s → table_ok s'.
Proof.
  unfold table_ok.
  intros [t c n r s1 s2 E | t m n b r s1 s2 E | t l r s1 s2 E
         | t l r s1 s2 E | t l r s1 s2 E | t r s1 s2 E | t r s1 s2 E] Hok.
  - apply setlocale_effect in E as (b & e & ->). done.
  - apply newlocale_effect in E as [(e & _ & ->) | (w & _ & _ & ->)]; done.
  - apply duplocale_effect in E as (w & _ & -> & _). done.
  - apply freelocale_effect in E as (h & ->). done.
  - rewrite uselocale_run in E. case_decide; injection E as <- <-; exact Hok.
  - rewrite localeconv_run in E.
    destruct (g_locale_once s1); injection E as <- <-; [|done].
    intros _. by apply Hok.
  - apply mb_cur_max_effect in E as ->. done.
Qed.

Lemma reachable_table_ok s : rtc step initial_state s → table_ok s.
Proof.
  intros Hr. eapply (rtc_ind_r (λ s, table_ok s)); [| |exact Hr].
  - by intros ?.
  - intros s1 s2 _ Hs IH. by eapply step_table_ok.
Qed.

(** C8. In every state the entry points can reach from process start, so
    whatever locale is active and whatever [setlocale] calls came before,
    [localeconv] returns a table whose [decimal_point] is a dot, whose
    [thousands_sep] and every other text member is the empty string, and
    whose every numeric member is [CHAR_MAX]; a further call, from any
    thread, returns the same table and changes nothing. *)
Theorem localeconv_table s t t' :
  rtc step initial_state s →
  ∃ table s',
    localeconv t s = Some (table, s')
    ∧ decimal_point table = Some "."
    ∧ thousands_sep table = Some EmptyString
    ∧ Forall (λ member, member = Some EmptyString) (text_members table)
    ∧ Forall (λ member, member = CHAR_MAX) (numeric_members table)
    ∧ localeconv t' s' = Some (table, s').
Proof.
  intros Hok%reachable_table_ok. exists c_format_table.
  assert (Forall (λ member, member = Some EmptyString)
            (text_members c_format_table)) as Htext
    by (repeat constructor).
  assert (Forall (λ member, member = CHAR_MAX)
            (numeric_members c_format_table)) as Hnum
    by (repeat constructor).
  destruct (g_locale_once s) eqn:Ho.
  - exists s. rewrite !localeconv_run, Ho, Hok by done. done.
  - eexists. rewrite localeconv_run, Ho. split; [done|].
    by rewrite localeconv_run.
Qed.

(** ** Handles and widths *)

Lemma handles_ok_new s width :
  width = 1 ∨ width = 4 →
  handles_ok s →
  handles_ok
    (with_heap (<[fresh (dom (heap s)) := Build_locale width]> (heap s)) s).
Proof.
  intros Hw [Hheap Htls]. split; simpl.
  - intros a obj. rewrite lookup_insert.
    case_decide; [by intros [= <-]|by apply Hheap].
  - intros t. specialize (Htls t).
    destruct (default NULL (tls_locale s !! t)) as [| |a]; simpl in *;
      [done..|].
    rewrite lookup_insert_is_Some. destruct Htls as [obj Hobj].
    right. split; [|by eexists].
    intros <-. by rewrite fresh_addr_unused in Hobj.
Qed.

Lemma api_step_handles_ok s s' : api_step s s' → handles_ok s → handles_ok s'.
Proof.
  intros [t c n r s1 s2 E | t m n b r s1 s2 E | t l r s1 s2 E
         | t l r s1 s2 Hl E | t r s1 s2 E | t r s1 s2 E] Hok.
  - apply setlocale_effect in E as (b & e & ->). exact Hok.
  - apply newlocale_effect in E as [(e & _ & ->) | (w & Hw & _ & ->)];
      [exact Hok|by apply handles_ok_new].
  - apply duplocale_effect in E as (w & _ & -> & Hw).
    apply handles_ok_new; [|done].
    destruct Hw as [[_ ->] | (a & obj & _ & Ha & ->)].
    + destruct (__bionic_current_locale_is_utf8 s1); auto.
    + destruct Hok as [Hheap _]. by eapply Hheap.
  - rewrite uselocale_run in E.
    case_decide; injection E as <- <-; [exact Hok|].
    destruct Hok as [Hheap Htls]. split; [exact Hheap|].
    intros t'. simpl. rewrite lookup_insert.
    case_decide; [exact Hl|apply Htls].
  - rewrite localeconv_run in E.
    destruct (g_locale_once s1); injection E as <- <-; exact Hok.
  - apply mb_cur_max_effect in E as ->. exact Hok.
Qed.

Lemma api_step_heap s s' : api_step s s' → heap s ⊆ heap s'.
Proof.
  intros [t c n r s1 s2 E | t m n b r s1 s2 E | t l r s1 s2 E
         | t l r s1 s2 Hl E | t r s1 s2 E | t r s1 s2 E].
  - by apply setlocale_effect in E as (b & e & ->).
  - apply newlocale_effect in E as [(e & _ & ->) | (w & Hw & _ & ->)];
      [done|]. apply insert_subseteq, fresh_addr_unused.
  - apply duplocale_effect in E as (w & _ & -> & Hw).
    apply insert_subseteq, fresh_addr_unused.
  - rewrite uselocale_run in E. by case_decide; injection E as <- <-.
  - rewrite localeconv_run in E.
    by destruct (g_locale_once s1); injection E as <- <-.
  - by apply mb_cur_max_effect in E as ->.
Qed.

Lemma initial_handles_ok : handles_ok initial_state.
Proof. split; [by intros a obj|by intros t]. Qed.

Lemma reachable_handles_ok s : rtc api_step initial_state s → handles_ok s.
Proof.
  intros Hr. eapply (rtc_ind_r (λ s, handles_ok s)); [| |exact Hr].
  - apply initial_handles_ok.
  - intros s1 s2 _ Hs IH. by eapply api_step_handles_ok.
Qed.

Lemma rtc_api_step_heap s s' : rtc api_step s s' → heap s ⊆ heap s'.
Proof.
  induction 1 as [|s1 s2 s3 Hs _ IH]; [done|].
  etrans; [by apply api_step_heap|done].
Qed.

(** C9. In every state reached from process start by calls of [setlocale],
    [newlocale], [duplocale] and [uselocale] (also [localeconv] and the
    width query itself), with [uselocale] given null, the sentinel or a
    handle one of them returned: on every thread [__ctype_get_mb_cur_max]
    returns a value, which is 1 or 4, and leaves the state as it is; every
    handle made so far has width 1 or 4; and no later call changes the
    width of a handle once made. *)
Theorem mb_cur_max_one_or_four s :
  rtc api_step initial_state s →
  (∀ t, ∃ width, __ctype_get_mb_cur_max t s = Some (width, s)
                 ∧ (width = 1 ∨ width = 4))
  ∧ (∀ a obj, heap s !! a = Some obj →
              mb_cur_max obj = 1 ∨ mb_cur_max obj = 4)
  ∧ (∀ s', rtc api_step s s' →
           ∀ a obj, heap s !! a = Some obj → heap s' !! a = Some obj).
Proof.
  intros [Hheap Htls]%reachable_handles_ok. split; [|split; [done|]].
  - intros t. rewrite mb_cur_max_run. specialize (Htls t).
    unfold current_locale.
    destruct (tls_locale s !! t) as [[| |a]|]; simpl in *.
    1,2,4: eexists; split; [done|];
      destruct (__bionic_current_locale_is_utf8 s); auto.
    destruct Htls as [obj Hobj]. rewrite Hobj. simpl.
    eexists; split; [done|]. by eapply Hheap.
  - intros s' Hr%rtc_api_step_heap a obj Ha. by eapply lookup_weaken.
Qed.

End LocaleFacts.

(** ** Further properties of the entry points *)

Section MoreLocaleFacts.

Context `{Headers}.

Ltac exec :=
  unfold setlocale, newlocale, duplocale, freelocale, uselocale, localeconv,
    __ctype_get_mb_cur_max, __locale_t_of_other, __locale_t_of_width,
    __locale_init, pthread_once_g_locale, new, deref, delete,
    load_is_utf8, store_is_utf8, set_errno, load_tls_locale,
    store_tls_locale, bind, ret;
  simpl.

Lemma with_is_utf8_same s :
  with_is_utf8 (__bionic_current_locale_is_utf8 s) s = s.
Proof. by destruct s. Qed.

Lemma with_heap_same s : with_heap (heap s) s = s.
Proof. by destruct s. Qed.

Lemma with_is_utf8_twice b b' s :
  with_is_utf8 b (with_is_utf8 b' s) = with_is_utf8 b s.
Proof. done. Qed.

(** Both validator functions read the name up to its terminator only. *)
Lemma is_supported_locale_c_str buf :
  __is_supported_locale (c_str buf) = __is_supported_locale buf.
Proof.
  apply Bool.eq_iff_eq_true.
  by rewrite !is_supported_locale_spec, c_str_idemp.
Qed.

Lemma is_utf8_locale_c_str buf :
  __is_utf8_locale (c_str buf) = __is_utf8_locale buf.
Proof.
  apply Bool.eq_iff_eq_true.
  by rewrite !is_utf8_locale_spec, c_str_idemp.
Qed.

(** The two names [setlocale] returns are names it accepts, and each
    selects the personality it names. *)
Lemma canonical_name_supported b :
  __is_supported_locale (canonical_name b) = true.
Proof. by destruct b. Qed.

Lemma canonical_name_utf8 b : __is_utf8_locale (canonical_name b) = b.
Proof. by destruct b. Qed.

(** [setlocale] returns for all arguments, and writes at most the flag and
    the caller's [errno]. *)
Lemma setlocale_total category locale_name t s :
  ∃ r b e, setlocale category locale_name t s =
             Some (r, with_errno e (with_is_utf8 b s)).
Proof.
  destruct s. exec.
  repeat case_match; eexists _, _, _;
    unfold with_errno, with_is_utf8; simpl; reflexivity.
Qed.

(** The exact result of the calls that make or destroy a handle. *)
Lemma newlocale_accept category_mask locale_name base t s :
  valid_category_mask category_mask →
  __is_supported_locale locale_name = true →
  newlocale category_mask (Some locale_name) base t s =
    Some (Ptr (fresh (dom (heap s))),
          with_heap
            (<[fresh (dom (heap s)) :=
                 Build_locale (if __is_utf8_locale locale_name then 4 else 1)]>
               (heap s)) s).
Proof.
  intros Hm%mask_test_valid Hn. exec. by rewrite Hm, Hn.
Qed.

Lemma duplocale_global t s :
  duplocale LC_GLOBAL_LOCALE t s =
    Some (Ptr (fresh (dom (heap s))),
          with_heap
            (<[fresh (dom (heap s)) :=
                 Build_locale
                   (if __bionic_current_locale_is_utf8 s then 4 else 1)]>
               (heap s)) s).
Proof. by exec. Qed.

Lemma duplocale_handle a obj t s :
  heap s !! a = Some obj →
  duplocale (Ptr a) t s =
    Some (Ptr (fresh (dom (heap s))),
          with_heap
            (<[fresh (dom (heap s)) := Build_locale (mb_cur_max obj)]>
               (heap s)) s).
Proof. intros Ha. exec. by rewrite Ha. Qed.

Lemma freelocale_handle a obj t s :
  heap s !! a = Some obj →
  freelocale (Ptr a) t s =
    Some (tt, with_heap (base.delete a (heap s)) s).
Proof. intros Ha. exec. by rewrite Ha. Qed.

Lemma freelocale_shrinks l t s r s' :
  freelocale l t s = Some (r, s') →
  heap s' ⊆ heap s ∧ s' = with_heap (heap s') s.
Proof.
  exec. intros E. destruct l as [| |a]; [|done|].
  - injection E as <- <-. by rewrite with_heap_same.
  - destruct (heap s !! a); simpl in E; [|done].
    injection E as <- <-. split; [apply delete_subseteq|done].
Qed.

(** The width query gives the same answer in a state with the same flag,
    the same slot for the thread and at least the same handles. *)
Lemma mb_cur_max_stable t s s' width :
  tls_locale s' !! t = tls_locale s !! t →
  __bionic_current_locale_is_utf8 s' = __bionic_current_locale_is_utf8 s →
  heap s ⊆ heap s' →
  __ctype_get_mb_cur_max t s = Some (width, s) →
  __ctype_get_mb_cur_max t s' = Some (width, s').
Proof.
  intros Htls Hflag Hheap. rewrite !mb_cur_max_run.
  unfold current_locale. rewrite Htls, Hflag.
  destruct (tls_locale s !! t) as [[| |a]|]; simpl;
    try (by intros [= <-]).
  destruct (heap s !! a) as [obj|] eqn:Ha; simpl; [|done].
  intros [= <-]. by rewrite (lookup_weaken _ _ _ _ Ha Hheap).
Qed.

(** X1. A category below [LC_CTYPE] or above [LC_IDENTIFICATION] makes
    [setlocale] return null and set the caller's [errno] to [EINVAL],
    whatever the name: a supported name is not applied, and nothing but
    that [errno] changes. *)
Theorem setlocale_invalid_category category locale_name t s :
  category < LC_CTYPE ∨ category > LC_IDENTIFICATION →
  setlocale category locale_name t s =
    Some (None, with_errno (<[t := EINVAL]> (errno s)) s).
Proof.
  intros Hc. exec.
  assert ((category <? LC_CTYPE) || (category >? LC_IDENTIFICATION) = true)
    as ->; [|done].
  apply orb_true_iff. rewrite Z.ltb_lt, Z.gtb_ltb, Z.ltb_lt. lia.
Qed.

(** X2. With a valid category and a supported name, [setlocale] does not
    return the name it was given but the canonical name of the personality
    selected: C for the names C and POSIX, with the flag off, and C.UTF-8
    for the empty name, C.UTF-8 and en_US.UTF-8, with the flag on.  The
    caller's [errno] is not written. *)
Theorem setlocale_returns_canonical category locale_name t s :
  valid_category category →
  __is_supported_locale locale_name = true →
  ∃ is_utf8,
    setlocale category (Some locale_name) t s =
      Some (Some (canonical_name is_utf8), with_is_utf8 is_utf8 s)
    ∧ (is_utf8 = false ↔
         c_str locale_name = "C" ∨ c_str locale_name = "POSIX")
    ∧ (is_utf8 = true ↔
         c_str locale_name = EmptyString ∨ c_str locale_name = "C.UTF-8" ∨
         c_str locale_name = "en_US.UTF-8").
Proof.
  intros Hc Hn. exists (__is_utf8_locale locale_name).
  split; [by apply setlocale_assign|].
  rewrite <- is_utf8_locale_c_str.
  apply is_supported_locale_spec in Hn
    as [-> | [-> | [-> | [-> | ->]]]]; vm_compute; intuition congruence.
Qed.

(** X3. Saving and restoring the default locale works: if a caller keeps
    the name a query returned, switches to any supported locale, and then
    passes the saved name back, the last call returns the saved name and
    the state is the one the caller started from. *)
Theorem setlocale_save_restore c1 c2 c3 locale_name t s :
  valid_category c1 → valid_category c2 → valid_category c3 →
  __is_supported_locale locale_name = true →
  ∃ saved s1,
    setlocale c1 None t s = Some (Some saved, s)
    ∧ setlocale c2 (Some locale_name) t s =
        Some (Some (canonical_name (__is_utf8_locale locale_name)), s1)
    ∧ setlocale c3 (Some saved) t s1 = Some (Some saved, s).
Proof.
  intros Hc1 Hc2 Hc3 Hn. eexists _, _.
  split; [by apply setlocale_query|].
  split; [by apply setlocale_assign|].
  rewrite setlocale_assign by (done || apply canonical_name_supported).
  by rewrite canonical_name_utf8, with_is_utf8_twice, with_is_utf8_same.
Qed.

(** X4. The default locale is process-wide and not per category: after a
    call of [setlocale] on any thread, with any valid category and a
    supported name, the width query on every thread that has no handle
    installed returns 4 if the name selects UTF-8 and 1 otherwise. *)
Theorem setlocale_drives_width category locale_name t t' s :
  valid_category category →
  __is_supported_locale locale_name = true →
  current_locale t' s = LC_GLOBAL_LOCALE →
  ∃ r s',
    setlocale category (Some locale_name) t s = Some (r, s')
    ∧ __ctype_get_mb_cur_max t' s' =
        Some (if __is_utf8_locale locale_name then 4 else 1, s').
Proof.
  intros Hc Hn Hcur. eexists _, _. split; [by apply setlocale_assign|].
  rewrite mb_cur_max_run.
  change (current_locale t' (with_is_utf8 _ s)) with (current_locale t' s).
  by rewrite Hcur.
Qed.

(** X5. A thread that has a live handle installed is shielded from the
    default locale: after any call of [setlocale], with any arguments and
    from any thread, its width query returns the width of its handle. *)
Theorem setlocale_not_seen_through_handle category locale_name t t' a obj s :
  tls_locale s !! t' = Some (Ptr a) →
  heap s !! a = Some obj →
  ∃ r s',
    setlocale category locale_name t s = Some (r, s')
    ∧ __ctype_get_mb_cur_max t' s' = Some (mb_cur_max obj, s').
Proof.
  intros Htls Ha.
  destruct (setlocale_total category locale_name t s) as (r & b & e & E).
  eexists _, _. split; [exact E|].
  rewrite mb_cur_max_run. unfold current_locale. simpl.
  by rewrite Htls, Ha.
Qed.

(** X6. [errno] discipline of [setlocale] and [newlocale]: a call never
    writes the [errno] of a thread other than the caller, and a call that
    returns a non-null result writes no [errno] at all. *)
Theorem errno_written_only_on_failure t s :
  (∀ category locale_name r s',
     setlocale category locale_name t s = Some (r, s') →
     (∀ t', t' ≠ t → errno s' !! t' = errno s !! t')
     ∧ (r ≠ None → errno s' = errno s))
  ∧ (∀ category_mask locale_name base r s',
       newlocale category_mask locale_name base t s = Some (r, s') →
       (∀ t', t' ≠ t → errno s' !! t' = errno s !! t')
       ∧ (r ≠ NULL → errno s' = errno s)).
Proof.
  split.
  - intros c n r s'. exec. intros E.
    repeat case_match; injection E as <- <-; simpl;
      (split; [by intros t' Ht'; rewrite ?lookup_insert_ne|done]).
  - intros m n b r s'. exec. intros E.
    repeat case_match; injection E as <- <-; simpl;
      (split; [by intros t' Ht'; rewrite ?lookup_insert_ne|done]).
Qed.

(** X7. With a mask that has no bit outside the legal set and a name the
    validator rejects, [newlocale] returns null and sets the caller's
    [errno] to [ENOENT]; no object is allocated and nothing else changes. *)
Theorem newlocale_unsupported_name category_mask locale_name base t s :
  valid_category_mask category_mask →
  __is_supported_locale locale_name = false →
  newlocale category_mask (Some locale_name) base t s =
    Some (NULL, with_errno (<[t := ENOENT]> (errno s)) s).
Proof.
  intros Hm%mask_test_valid Hn. exec. by rewrite Hm, Hn.
Qed.

(** X8. [setlocale] and [newlocale] accept the same names: for a valid
    category, a mask with no bit outside the legal set and a non-null
    name, [newlocale] returns a handle exactly when [setlocale] returns a
    name. *)
Theorem newlocale_setlocale_agree category category_mask locale_name base t s :
  valid_category category →
  valid_category_mask category_mask →
  (∃ a s', newlocale category_mask (Some locale_name) base t s =
             Some (Ptr a, s'))
  ↔ (∃ name s', setlocale category (Some locale_name) t s =
                  Some (Some name, s')).
Proof.
  intros Hc Hm. destruct (__is_supported_locale locale_name) eqn:Hn.
  - rewrite newlocale_accept, setlocale_assign by done.
    split; intros _; by eexists _, _.
  - rewrite newlocale_unsupported_name, setlocale_reject by done.
    split; intros (? & ? & [=]).
Qed.

(** X9. Making a handle does not activate it: whatever [newlocale] or
    [duplocale] return, the width query of every thread on which it was
    defined before the call returns the same width after it. *)
Theorem handle_creation_keeps_widths t t' s width :
  __ctype_get_mb_cur_max t' s = Some (width, s) →
  (∀ category_mask locale_name base r s',
     newlocale category_mask locale_name base t s = Some (r, s') →
     __ctype_get_mb_cur_max t' s' = Some (width, s'))
  ∧ (∀ l r s',
       duplocale l t s = Some (r, s') →
       __ctype_get_mb_cur_max t' s' = Some (width, s')).
Proof.
  intros Hw. split.
  - intros m n b r s' E.
    apply newlocale_effect in E as [(e & _ & ->) | (w & _ & _ & ->)];
      (apply (mb_cur_max_stable t' s); [done|done| |done]); simpl; [done|].
    apply insert_subseteq, fresh_addr_unused.
  - intros l r s' E. apply duplocale_effect in E as (w & _ & -> & _).
    apply (mb_cur_max_stable t' s); [done|done| |done]. simpl.
    apply insert_subseteq, fresh_addr_unused.
Qed.

(** X10. [freelocale] undoes [newlocale] and [duplocale]: freeing the
    handle either of them has just returned, from any thread, gives back
    exactly the state before the handle was made. *)
Theorem freelocale_undoes_creation category_mask locale_name base l r t t' s s1 :
  (newlocale category_mask locale_name base t s = Some (r, s1) ∧ r ≠ NULL)
  ∨ duplocale l t s = Some (r, s1) →
  freelocale r t' s1 = Some (tt, s).
Proof.
  intros Hmade.
  assert (∃ obj, r = Ptr (fresh (dom (heap s)))
                 ∧ s1 = with_heap (<[fresh (dom (heap s)) := obj]> (heap s)) s)
    as (obj & -> & ->).
  { destruct Hmade as [[E Hr] | E].
    - apply newlocale_effect in E as [(e & -> & _) | (w & _ & -> & ->)];
        [done|by eexists].
    - apply duplocale_effect in E as (w & -> & -> & _). by eexists. }
  erewrite freelocale_handle by apply lookup_insert_eq. simpl.
  unfold with_heap at 1. simpl.
  rewrite delete_insert_eq, delete_id by apply fresh_addr_unused.
  by destruct s.
Qed.

(** X11. A duplicate is a copy of its own: [duplocale] of a live handle
    returns a different handle, and after the original is freed the
    duplicate is still live and has the original's width. *)
Theorem duplocale_independent_copy a obj t t' s :
  heap s !! a = Some obj →
  ∃ a' s1 s2,
    duplocale (Ptr a) t s = Some (Ptr a', s1)
    ∧ a' ≠ a
    ∧ freelocale (Ptr a) t' s1 = Some (tt, s2)
    ∧ heap s2 !! a = None
    ∧ heap s2 !! a' = Some (Build_locale (mb_cur_max obj)).
Proof.
  intros Ha.
  assert (fresh (dom (heap s)) ≠ a) as Hne
    by (intros E; by rewrite <- E, fresh_addr_unused in Ha).
  eexists _, _, _. split; [by apply duplocale_handle|].
  split; [done|]. split.
  { eapply freelocale_handle. simpl. by rewrite lookup_insert_ne. }
  simpl. split; [apply lookup_delete_eq|].
  by rewrite lookup_delete_ne, lookup_insert_eq.
Qed.

(** X12. [duplocale] of the sentinel right after a successful [setlocale]
    captures the personality just selected: the handle has width 4 if the
    name given to [setlocale] selects UTF-8 and 1 otherwise. *)
Theorem duplocale_after_setlocale category locale_name t t' s :
  valid_category category →
  __is_supported_locale locale_name = true →
  ∃ r s1 a s2,
    setlocale category (Some locale_name) t s = Some (r, s1)
    ∧ duplocale LC_GLOBAL_LOCALE t' s1 = Some (Ptr a, s2)
    ∧ heap s2 !! a =
        Some (Build_locale (if __is_utf8_locale locale_name then 4 else 1)).
Proof.
  intros Hc Hn. eexists _, _, _, _.
  split; [by apply setlocale_assign|].
  split; [apply duplocale_global|].
  simpl. apply lookup_insert_eq.
Qed.

Lemma current_locale_not_null t s : current_locale t s ≠ NULL.
Proof.
  unfold current_locale. by destruct (tls_locale s !! t) as [[| |a]|].
Qed.

Lemma current_locale_installed l t s :
  l ≠ NULL →
  current_locale t (with_tls_locale (<[t := l]> (tls_locale s)) s) = l.
Proof.
  intros Hl. unfold current_locale. simpl. rewrite lookup_insert_eq.
  by destruct l.
Qed.

(** X13. [uselocale] never returns null: in every state and for every
    argument it returns a value, and that value is the sentinel or what an
    earlier call installed. *)
Theorem uselocale_never_null new_locale t s :
  ∃ r s', uselocale new_locale t s = Some (r, s')
          ∧ r ≠ NULL
          ∧ (r = LC_GLOBAL_LOCALE ∨ tls_locale s !! t = Some r).
Proof.
  eexists _, _. split; [apply uselocale_run|].
  split; [apply current_locale_not_null|].
  unfold current_locale. destruct (tls_locale s !! t) as [[| |a]|]; auto.
Qed.

(** X14. Swapping a thread's locale and swapping back works: after
    [old = uselocale(new)] with a non-null [new], the call [uselocale(old)]
    returns [new], and the thread's current locale and the answer of its
    width query are what they were; if the thread had installed a locale
    before, the whole state is what it was. *)
Theorem uselocale_swap_restore new_locale t s :
  new_locale ≠ NULL →
  ∃ old s1 s2,
    uselocale new_locale t s = Some (old, s1)
    ∧ uselocale old t s1 = Some (new_locale, s2)
    ∧ current_locale t s2 = current_locale t s
    ∧ fst <$> __ctype_get_mb_cur_max t s2 = fst <$> __ctype_get_mb_cur_max t s
    ∧ (∀ l, tls_locale s !! t = Some l → l ≠ NULL → s2 = s).
Proof.
  intros Hnew. pose proof (current_locale_not_null t s) as Hold.
  exists (current_locale t s),
    (with_tls_locale (<[t := new_locale]> (tls_locale s)) s),
    (with_tls_locale (<[t := current_locale t s]> (tls_locale s)) s).
  assert (current_locale t
            (with_tls_locale (<[t := current_locale t s]> (tls_locale s)) s)
          = current_locale t s) as Hcur
    by (by apply current_locale_installed).
  split; [by rewrite uselocale_run, decide_False|].
  split.
  { rewrite uselocale_run, decide_False by done.
    rewrite current_locale_installed by done.
    unfold with_tls_locale. simpl. by rewrite insert_insert_eq. }
  split; [done|]. split.
  - rewrite !mb_cur_max_run, Hcur. simpl.
    destruct (current_locale t s) as [| |a]; [done..|].
    by destruct (heap s !! a).
  - intros l Hl Hnn. unfold current_locale. rewrite Hl.
    replace (match l with NULL => LC_GLOBAL_LOCALE | _ => l end) with l
      by (by destruct l).
    rewrite insert_id by done. by destruct s.
Qed.

(** X15. The binding is per thread: a call of [uselocale] on one thread,
    with any argument, leaves the current locale of every other thread as
    it is, and the width query of every other thread on which it was
    defined returns the same width. *)
Theorem uselocale_thread_local new_locale t t' r s s' :
  t' ≠ t →
  uselocale new_locale t s = Some (r, s') →
  current_locale t' s' = current_locale t' s
  ∧ (∀ width, __ctype_get_mb_cur_max t' s = Some (width, s) →
              __ctype_get_mb_cur_max t' s' = Some (width, s')).
Proof.
  intros Hne E. rewrite uselocale_run in E.
  assert (tls_locale s' !! t' = tls_locale s !! t'
          ∧ __bionic_current_locale_is_utf8 s' =
              __bionic_current_locale_is_utf8 s
          ∧ heap s' = heap s) as (Htls & Hflag & Hheap).
  { case_decide; injection E as <- <-; simpl; [done|].
    by rewrite lookup_insert_ne. }
  split.
  - unfold current_locale. by rewrite Htls.
  - intros width. apply mb_cur_max_stable; [done|done|by rewrite Hheap].
Qed.

(** X16. Installing the sentinel hands a thread back to the default
    locale: after [uselocale(LC_GLOBAL_LOCALE)], whatever was installed
    before, the thread's width query returns 4 if the flag is set and 1
    otherwise. *)
Theorem uselocale_sentinel_reset t s :
  ∃ s1,
    uselocale LC_GLOBAL_LOCALE t s = Some (current_locale t s, s1)
    ∧ __ctype_get_mb_cur_max t s1 =
        Some (if __bionic_current_locale_is_utf8 s then 4 else 1, s1).
Proof.
  exists (with_tls_locale (<[t := LC_GLOBAL_LOCALE]> (tls_locale s)) s).
  split; [by rewrite uselocale_run|].
  rewrite mb_cur_max_run, current_locale_installed by done. done.
Qed.

(** X17. [uselocale] keeps the pointer it is given, not a copy of the
    object: once a handle installed on a thread is freed, by any thread,
    the slot refers to no live object and the width query of that thread
    has no defined result. *)
Theorem uselocale_keeps_pointer a obj t t' s :
  heap s !! a = Some obj →
  ∃ r s1 s2,
    uselocale (Ptr a) t s = Some (r, s1)
    ∧ freelocale (Ptr a) t' s1 = Some (tt, s2)
    ∧ tls_locale s2 !! t = Some (Ptr a)
    ∧ heap s2 !! a = None
    ∧ __ctype_get_mb_cur_max t s2 = None.
Proof.
  intros Ha.
  exists (current_locale t s),
    (with_tls_locale (<[t := Ptr a]> (tls_locale s)) s).
  eexists.
  split; [by rewrite uselocale_run|].
  split; [by eapply freelocale_handle|].
  simpl. split; [apply lookup_insert_eq|].
  split; [apply lookup_delete_eq|].
  rewrite mb_cur_max_run. unfold current_locale. simpl.
  by rewrite lookup_insert_eq, lookup_delete_eq.
Qed.

(** X18. In every state, initialised or not, [localeconv] returns a table,
    writes nothing but its own two statics, and leaves the once-control
    done, so that a further call from any thread returns the same table
    and changes nothing; the width query of every thread on which it was
    defined returns the same width. *)
Theorem localeconv_frame t t' s :
  ∃ table s',
    localeconv t s = Some (table, s')
    ∧ s' = with_g_locale_once true (with_g_locale table s)
    ∧ localeconv t' s' = Some (table, s')
    ∧ (∀ t'' width, __ctype_get_mb_cur_max t'' s = Some (width, s) →
                    __ctype_get_mb_cur_max t'' s' = Some (width, s')).
Proof.
  rewrite localeconv_run. destruct (g_locale_once s) eqn:Ho.
  - exists (g_locale s), s. split; [done|].
    split; [destruct s; simpl in *; by subst|].
    rewrite localeconv_run, Ho. done.
  - eexists _, _. split; [done|]. split; [done|].
    split; [by rewrite localeconv_run|].
    intros t'' width. by apply mb_cur_max_stable.
Qed.

(** One call, [freelocale] included, keeps every live object's width in
    the set of the two widths. *)
Lemma step_heap_widths s s' :
  step s s' →
  (∀ a obj, heap s !! a = Some obj →
            mb_cur_max obj = 1 ∨ mb_cur_max obj = 4) →
  (∀ a obj, heap s' !! a = Some obj →
            mb_cur_max obj = 1 ∨ mb_cur_max obj = 4).
Proof.
  intros [t c n r s1 s2 E | t m n b r s1 s2 E | t l r s1 s2 E
         | t l r s1 s2 E | t l r s1 s2 E | t r s1 s2 E | t r s1 s2 E] Hok.
  - apply setlocale_effect in E as (b & e & ->). exact Hok.
  - apply newlocale_effect in E as [(e & _ & ->) | (w & Hw & _ & ->)];
      [exact Hok|].
    intros a obj. simpl. rewrite lookup_insert.
    case_decide; [by intros [= <-]|apply Hok].
  - apply duplocale_effect in E as (w & _ & -> & Hw).
    intros a obj. simpl. rewrite lookup_insert.
    case_decide; [intros [= <-]; simpl|apply Hok].
    destruct Hw as [[_ ->] | (a0 & obj0 & _ & Ha0 & ->)].
    + destruct (__bionic_current_locale_is_utf8 s1); auto.
    + by eapply Hok.
  - apply freelocale_shrinks in E as [Hsub _].
    intros a obj Ha. eapply Hok. by eapply lookup_weaken.
  - rewrite uselocale_run in E.
    case_decide; injection E as <- <-; exact Hok.
  - rewrite localeconv_run in E.
    destruct (g_locale_once s1); injection E as <- <-; exact Hok.
  - apply mb_cur_max_effect in E as ->. exact Hok.
Qed.

(** X19. Whatever the callers do, [freelocale] and [uselocale] with stale
    or foreign pointers included, as long as every call has a defined
    result: every live handle has width 1 or 4, and the width query, on
    any thread on which it has a defined result, returns 1 or 4. *)
Theorem widths_one_or_four_always s :
  rtc step initial_state s →
  (∀ a obj, heap s !! a = Some obj →
            mb_cur_max obj = 1 ∨ mb_cur_max obj = 4)
  ∧ (∀ t width s', __ctype_get_mb_cur_max t s = Some (width, s') →
                   width = 1 ∨ width = 4).
Proof.
  intros Hr.
  assert (∀ a obj, heap s !! a = Some obj →
                   mb_cur_max obj = 1 ∨ mb_cur_max obj = 4) as Hok.
  { eapply (rtc_ind_r
              (λ s, ∀ a obj, heap s !! a = Some obj →
                             mb_cur_max obj = 1 ∨ mb_cur_max obj = 4));
      [| |exact Hr].
    - by intros a obj.
    - intros s1 s2 _ Hs IH. by eapply step_heap_widths. }
  split; [exact Hok|].
  intros t width s'. rewrite mb_cur_max_run.
  destruct (current_locale t s) as [| |a]; [done| |].
  - intros [= <- _]. destruct (__bionic_current_locale_is_utf8 s); auto.
  - destruct (heap s !! a) as [obj|] eqn:Ha; simpl; [|done].
    intros [= <- _]. by eapply Hok.
Qed.

End MoreLocaleFacts.

(** ** The entry points on concrete inputs, with Android's constants *)

Section Examples.

#[local] Existing Instance android_headers.

Lemma valid_category_0 : valid_category 0.
Proof. unfold valid_category. simpl. lia. Defined.

Lemma valid_category_6 : valid_category 6.
Proof. unfold valid_category. simpl. lia. Defined.

(** C1 as stated fails: with the flag off, [setlocale(LC_CTYPE, "")] is
    not a query. It returns C.UTF-8, not the current name C, and it turns
    the flag on. *)
Lemma setlocale_empty_name_not_query :
  valid_category 0
  ∧ ¬ (setlocale 0 (Some EmptyString) 0%nat c_locale_state =
         Some (Some (canonical_name
                       (__bionic_current_locale_is_utf8 c_locale_state)),
               c_locale_state))
  ∧ setlocale 0 (Some EmptyString) 0%nat c_locale_state =
      Some (Some "C.UTF-8", initial_state).
Proof.
  split; [exact valid_category_0|]. split; [|reflexivity].
  intros E. vm_compute in E. discriminate E.
Qed.

Lemma setlocale_empty_name_witness :
  valid_category 0
  ∧ (setlocale 0 (Some EmptyString) 0%nat c_locale_state =
       Some (Some "C.UTF-8", with_is_utf8 true c_locale_state)
     ∧ (with_is_utf8 true c_locale_state = c_locale_state ↔
        __bionic_current_locale_is_utf8 c_locale_state = true)).
Proof.
  split; [exact valid_category_0|].
  apply (setlocale_empty_name 0 0%nat c_locale_state).
  unfold valid_category. simpl. lia.
Defined.

Lemma setlocale_null_name_witness :
  valid_category 6
  ∧ setlocale 6 None 0%nat c_locale_state = Some (Some "C", c_locale_state).
Proof.
  split; [exact valid_category_6|].
  apply (setlocale_null_name 6 0%nat c_locale_state).
  unfold valid_category. simpl. lia.
Defined.

Lemma setlocale_unsupported_name_witness :
  valid_category 6
  ∧ __is_supported_locale "bogus" = false
  ∧ valid_category 0
  ∧ ∃ s',
      setlocale 6 (Some "bogus") 0%nat c_locale_state = Some (None, s')
      ∧ errno s' !! 0%nat = Some 2
      ∧ fst <$> setlocale 0 None 1%nat s' = Some (Some "C").
Proof.
  split; [exact valid_category_6|]. split; [reflexivity|].
  split; [exact valid_category_0|].
  destruct (setlocale_unsupported_name 6 "bogus" 0%nat c_locale_state
              0 1%nat)
    as (s' & E & Herrno & _ & _ & _ & Hq).
  - unfold valid_category. simpl. lia.
  - reflexivity.
  - unfold valid_category. simpl. lia.
  - exists s'. split; [exact E|]. split; [exact Herrno|exact Hq].
Defined.

Lemma valid_category_mask_1 : valid_category_mask 1.
Proof. apply mask_test_valid. reflexivity. Defined.

Lemma newlocale_supported_name_witness :
  valid_category_mask 1
  ∧ __is_supported_locale "en_US.UTF-8" = true
  ∧ ∃ a s',
      newlocale 1 (Some "en_US.UTF-8") NULL 0%nat initial_state
        = Some (Ptr a, s')
      ∧ heap s' !! a = Some (Build_locale 4)
      ∧ ∃ s'', (do uselocale (Ptr a) then __ctype_get_mb_cur_max) 0%nat s'
                 = Some (4, s'').
Proof.
  split; [exact valid_category_mask_1|]. split; [reflexivity|].
  destruct (newlocale_supported_name 1 "en_US.UTF-8" NULL 0%nat
              initial_state)
    as (a & s' & E & _ & _ & Ha & Hw).
  - apply mask_test_valid. reflexivity.
  - reflexivity.
  - exists a, s'. split; [exact E|]. split; [exact Ha|exact Hw].
Defined.

Lemma bit_outside_64 : bit_outside 64.
Proof. exists 6. split; reflexivity. Defined.

Lemma newlocale_invalid_argument_witness :
  bit_outside 64
  ∧ newlocale 64 (Some "C") NULL 0%nat initial_state =
      Some (NULL, with_errno (<[ 0%nat := 22 ]> ∅) initial_state).
Proof.
  split; [exact bit_outside_64|].
  exact (newlocale_invalid_argument 64 (Some "C") NULL 0%nat initial_state
           (or_introl bit_outside_64)).
Defined.

Lemma duplocale_snapshot_witness :
  ∃ a' s',
    duplocale LC_GLOBAL_LOCALE 0%nat c_locale_state = Some (Ptr a', s')
    ∧ heap s' !! a' = Some (Build_locale 1)
    ∧ ∃ r s'', setlocale 6 (Some "C.UTF-8") 0%nat s' = Some (r, s'')
               ∧ heap s'' !! a' = Some (Build_locale 1).
Proof.
  destruct (duplocale_snapshot LC_GLOBAL_LOCALE 1 0%nat c_locale_state
              6 (Some "C.UTF-8") 0%nat)
    as (a' & s' & E & _ & _ & Ha & Hs).
  - left. split; reflexivity.
  - exists a', s'. split; [exact E|]. split; [exact Ha|exact Hs].
Defined.

Lemma uselocale_spec_witness :
  uselocale NULL 0%nat initial_state = Some (LC_GLOBAL_LOCALE, initial_state)
  ∧ ∃ s', uselocale (Ptr 1) 0%nat initial_state = Some (LC_GLOBAL_LOCALE, s')
          ∧ uselocale NULL 0%nat s' = Some (Ptr 1, s').
Proof.
  destruct (uselocale_spec (Ptr 1) 0%nat initial_state)
    as (Hfirst & Hset & _).
  split; [apply Hfirst; reflexivity|].
  destruct Hset as (s' & E & _ & _ & _ & Hq); [discriminate|].
  exists s'. split; [exact E|exact Hq].
Defined.

Lemma c_locale_state_reachable : rtc step initial_state c_locale_state.
Proof.
  apply rtc_once.
  apply (step_setlocale 0%nat 6 (Some "C") (Some "C")).
  reflexivity.
Defined.

Lemma localeconv_table_witness :
  rtc step initial_state c_locale_state
  ∧ ∃ table s',
      localeconv 0%nat c_locale_state = Some (table, s')
      ∧ decimal_point table = Some "."
      ∧ thousands_sep table = Some EmptyString
      ∧ Forall (λ member, member = Some EmptyString) (text_members table)
      ∧ Forall (λ member, member = 127) (numeric_members table)
      ∧ localeconv 1%nat s' = Some (table, s').
Proof.
  split; [exact c_locale_state_reachable|].
  exact (localeconv_table c_locale_state 0%nat 1%nat
           c_locale_state_reachable).
Defined.

Lemma one_handle_state_reachable : rtc api_step initial_state one_handle_state.
Proof.
  eapply rtc_l.
  { apply (api_newlocale 0%nat 1 (Some "C") NULL (Ptr 1)). reflexivity. }
  apply rtc_once.
  apply (api_uselocale 0%nat (Ptr 1) LC_GLOBAL_LOCALE).
  - simpl. eexists. reflexivity.
  - reflexivity.
Defined.

Lemma mb_cur_max_one_or_four_witness :
  rtc api_step initial_state one_handle_state
  ∧ (∀ t, ∃ width,
        __ctype_get_mb_cur_max t one_handle_state
          = Some (width, one_handle_state)
        ∧ (width = 1 ∨ width = 4))
  ∧ __ctype_get_mb_cur_max 0%nat one_handle_state
      = Some (1, one_handle_state).
Proof.
  split; [exact one_handle_state_reachable|].
  destruct (mb_cur_max_one_or_four one_handle_state
              one_handle_state_reachable) as (Hq & _ & _).
  split; [exact Hq|reflexivity].
Defined.

End Examples.

(** ** The further properties on concrete inputs *)

Section MoreExamples.

#[local] Existing Instance android_headers.

Lemma valid_category_1 : valid_category 1.
Proof. unfold valid_category. simpl. lia. Defined.

Lemma category_13_out_of_range : 13 < LC_CTYPE ∨ 13 > LC_IDENTIFICATION.
Proof. right. simpl. lia. Defined.

Lemma setlocale_invalid_category_witness :
  (13 < LC_CTYPE ∨ 13 > LC_IDENTIFICATION)
  ∧ setlocale 13 (Some "C") 0%nat initial_state =
      Some (None, with_errno (<[ 0%nat := 22 ]> ∅) initial_state).
Proof.
  split; [exact category_13_out_of_range|].
  exact (setlocale_invalid_category 13 (Some "C") 0%nat initial_state
           category_13_out_of_range).
Defined.

Lemma setlocale_returns_canonical_witness :
  valid_category 0
  ∧ __is_supported_locale "POSIX" = true
  ∧ setlocale 0 (Some "POSIX") 0%nat initial_state =
      Some (Some "C", c_locale_state).
Proof.
  split; [exact valid_category_0|]. split; [reflexivity|].
  destruct (setlocale_returns_canonical 0 "POSIX" 0%nat initial_state
              valid_category_0 eq_refl)
    as (is_utf8 & E & Hoff & _).
  assert (is_utf8 = false) as -> by (apply Hoff; right; reflexivity).
  exact E.
Defined.

Lemma setlocale_save_restore_witness :
  valid_category 6
  ∧ __is_supported_locale "C" = true
  ∧ ∃ saved s1,
      setlocale 6 None 0%nat initial_state = Some (Some saved, initial_state)
      ∧ setlocale 6 (Some "C") 0%nat initial_state = Some (Some "C", s1)
      ∧ setlocale 6 (Some saved) 0%nat s1 = Some (Some saved, initial_state).
Proof.
  split; [exact valid_category_6|]. split; [reflexivity|].
  exact (setlocale_save_restore 6 6 6 "C" 0%nat initial_state
           valid_category_6 valid_category_6 valid_category_6 eq_refl).
Defined.

Lemma setlocale_drives_width_witness :
  valid_category 1
  ∧ __is_supported_locale "C" = true
  ∧ current_locale 1%nat initial_state = LC_GLOBAL_LOCALE
  ∧ ∃ r s',
      setlocale 1 (Some "C") 0%nat initial_state = Some (r, s')
      ∧ __ctype_get_mb_cur_max 1%nat s' = Some (1, s').
Proof.
  split; [exact valid_category_1|]. split; [reflexivity|].
  split; [reflexivity|].
  exact (setlocale_drives_width 1 "C" 0%nat 1%nat initial_state
           valid_category_1 eq_refl eq_refl).
Defined.

Lemma setlocale_not_seen_through_handle_witness :
  tls_locale one_handle_state !! 0%nat = Some (Ptr 1)
  ∧ heap one_handle_state !! 1%positive = Some (Build_locale 1)
  ∧ ∃ r s',
      setlocale 6 (Some "C.UTF-8") 1%nat one_handle_state = Some (r, s')
      ∧ __ctype_get_mb_cur_max 0%nat s' = Some (1, s').
Proof.
  split; [reflexivity|]. split; [reflexivity|].
  exact (setlocale_not_seen_through_handle 6 (Some "C.UTF-8") 1%nat 0%nat
           1%positive (Build_locale 1) one_handle_state eq_refl eq_refl).
Defined.

Lemma errno_written_only_on_failure_witness :
  setlocale 6 (Some "bogus") 0%nat initial_state =
    Some (None, with_errno (<[ 0%nat := 2 ]> ∅) initial_state)
  ∧ errno (with_errno (<[ 0%nat := 2 ]> ∅) initial_state) !! 1%nat =
      errno initial_state !! 1%nat.
Proof.
  split; [reflexivity|].
  destruct (errno_written_only_on_failure 0%nat initial_state) as [Hs _].
  destruct (Hs 6 (Some "bogus") None
              (with_errno (<[ 0%nat := 2 ]> ∅) initial_state) eq_refl)
    as [Hother _].
  apply Hother. discriminate.
Defined.

Lemma newlocale_unsupported_name_witness :
  valid_category_mask 1
  ∧ __is_supported_locale "bogus" = false
  ∧ newlocale 1 (Some "bogus") NULL 0%nat initial_state =
      Some (NULL, with_errno (<[ 0%nat := 2 ]> ∅) initial_state).
Proof.
  split; [exact valid_category_mask_1|]. split; [reflexivity|].
  exact (newlocale_unsupported_name 1 "bogus" NULL 0%nat initial_state
           valid_category_mask_1 eq_refl).
Defined.

Lemma newlocale_setlocale_agree_witness :
  valid_category 0
  ∧ valid_category_mask 1
  ∧ ((∃ a s', newlocale 1 (Some "fr_FR") NULL 0%nat initial_state =
                Some (Ptr a, s'))
     ↔ (∃ name s', setlocale 0 (Some "fr_FR") 0%nat initial_state =
                     Some (Some name, s'))).
Proof.
  split; [exact valid_category_0|]. split; [exact valid_category_mask_1|].
  exact (newlocale_setlocale_agree 0 1 "fr_FR" NULL 0%nat initial_state
           valid_category_0 valid_category_mask_1).
Defined.

Lemma handle_creation_keeps_widths_witness :
  __ctype_get_mb_cur_max 0%nat one_handle_state = Some (1, one_handle_state)
  ∧ ∃ r s',
      newlocale 1 (Some "C.UTF-8") NULL 1%nat one_handle_state = Some (r, s')
      ∧ __ctype_get_mb_cur_max 0%nat s' = Some (1, s').
Proof.
  split; [reflexivity|].
  destruct (handle_creation_keeps_widths 1%nat 0%nat one_handle_state 1
              eq_refl) as [Hnew _].
  eexists _, _. split; [reflexivity|].
  eapply (Hnew 1 (Some "C.UTF-8") NULL). reflexivity.
Defined.

Lemma freelocale_undoes_creation_witness :
  ∃ r s1,
    newlocale 1 (Some "C") NULL 0%nat initial_state = Some (r, s1)
    ∧ r ≠ NULL
    ∧ freelocale r 1%nat s1 = Some (tt, initial_state).
Proof.
  exists (Ptr 1),
    (State true false lconv_zero {[ 1%positive := Build_locale 1 ]} ∅ ∅).
  split; [reflexivity|]. split; [discriminate|].
  apply (freelocale_undoes_creation 1 (Some "C") NULL NULL (Ptr 1) 0%nat
           1%nat initial_state).
  left. split; [reflexivity|discriminate].
Defined.

Lemma duplocale_independent_copy_witness :
  heap one_handle_state !! 1%positive = Some (Build_locale 1)
  ∧ ∃ a' s1 s2,
      duplocale (Ptr 1) 0%nat one_handle_state = Some (Ptr a', s1)
      ∧ a' ≠ 1%positive
      ∧ freelocale (Ptr 1) 1%nat s1 = Some (tt, s2)
      ∧ heap s2 !! 1%positive = None
      ∧ heap s2 !! a' = Some (Build_locale 1).
Proof.
  split; [reflexivity|].
  exact (duplocale_independent_copy 1%positive (Build_locale 1) 0%nat 1%nat
           one_handle_state eq_refl).
Defined.

Lemma duplocale_after_setlocale_witness :
  valid_category 6
  ∧ __is_supported_locale "C" = true
  ∧ ∃ r s1 a s2,
      setlocale 6 (Some "C") 0%nat initial_state = Some (r, s1)
      ∧ duplocale LC_GLOBAL_LOCALE 1%nat s1 = Some (Ptr a, s2)
      ∧ heap s2 !! a = Some (Build_locale 1).
Proof.
  split; [exact valid_category_6|]. split; [reflexivity|].
  exact (duplocale_after_setlocale 6 "C" 0%nat 1%nat initial_state
           valid_category_6 eq_refl).
Defined.

Lemma handle_1_not_null : Ptr 1 ≠ NULL.
Proof. discriminate. Defined.

Lemma uselocale_swap_restore_witness :
  Ptr 1 ≠ NULL
  ∧ ∃ old s1 s2,
      uselocale (Ptr 1) 0%nat one_handle_state = Some (old, s1)
      ∧ uselocale old 0%nat s1 = Some (Ptr 1, s2)
      ∧ s2 = one_handle_state.
Proof.
  split; [exact handle_1_not_null|].
  destruct (uselocale_swap_restore (Ptr 1) 0%nat one_handle_state
              handle_1_not_null)
    as (old & s1 & s2 & E1 & E2 & _ & _ & Hsame).
  exists old, s1, s2. split; [exact E1|]. split; [exact E2|].
  apply (Hsame (Ptr 1)); [reflexivity|discriminate].
Defined.

Lemma uselocale_thread_local_witness :
  1%nat ≠ 0%nat
  ∧ uselocale (Ptr 1) 0%nat initial_state =
      Some (LC_GLOBAL_LOCALE, with_tls_locale {[ 0%nat := Ptr 1 ]} initial_state)
  ∧ current_locale 1%nat
      (with_tls_locale {[ 0%nat := Ptr 1 ]} initial_state) =
    current_locale 1%nat initial_state.
Proof.
  split; [discriminate|]. split; [reflexivity|].
  apply (uselocale_thread_local (Ptr 1) 0%nat 1%nat LC_GLOBAL_LOCALE
           initial_state); [discriminate|reflexivity].
Defined.

Lemma uselocale_keeps_pointer_witness :
  heap one_handle_state !! 1%positive = Some (Build_locale 1)
  ∧ ∃ r s1 s2,
      uselocale (Ptr 1) 0%nat one_handle_state = Some (r, s1)
      ∧ freelocale (Ptr 1) 1%nat s1 = Some (tt, s2)
      ∧ __ctype_get_mb_cur_max 0%nat s2 = None.
Proof.
  split; [reflexivity|].
  destruct (uselocale_keeps_pointer 1%positive (Build_locale 1) 0%nat 1%nat
              one_handle_state eq_refl)
    as (r & s1 & s2 & E1 & E2 & _ & _ & Hq).
  exists r, s1, s2. split; [exact E1|]. split; [exact E2|exact Hq].
Defined.

Lemma widths_one_or_four_always_witness :
  rtc step initial_state c_locale_state
  ∧ (∀ t width s',
       __ctype_get_mb_cur_max t c_locale_state = Some (width, s') →
       width = 1 ∨ width = 4).
Proof.
  split; [exact c_locale_state_reachable|].
  destruct (widths_one_or_four_always c_locale_state
              c_locale_state_reachable) as [_ Hq].
  exact Hq.
Defined.

End MoreExamples.
